(** * Cruiser TypeScript helpers: cursor-based binary codecs

    A shallow embedding of [ts_helpers/src/num.ts] (the eight range-checked
    integer classes) and of the borsh helper module ([SerializablePublicKey],
    [readAccount], [serializeInstruction]).

    Conventions of the embedding:
    - a Node [Buffer] is a list of bytes; it never changes length;
    - the cursor object [{ offset: number }] and the buffer a call works on
      are mutable and shared between caller and callee, so every method is
      a computation over a heap holding both;
    - [throw] is an explicit outcome which keeps the heap reached so far;
    - TypeScript [number] and [bigint] arguments are integers ([Z]);
    - the message of an [Error] is kept as the parts of its template
      literal; the text of a spliced value is given where the engine
      spells it in full;
    - the Node [Buffer] accessors and the web3.js [PublicKey] are platform
      code: they are modelled after their documented behaviour. *)

From Stdlib Require Import ZArith String List Lia Bool.
From Stdlib Require Import Strings.Byte DecimalString DecimalZ DecimalPos.
Import ListNotations.
Local Open Scope Z_scope.

(** ** Bytes *)

Definition Z_of_byte (b : byte) : Z := Z.of_N (Byte.to_N b).

Definition byte_of_Z (z : Z) : byte :=
  match Byte.of_N (Z.to_N (z mod 256)) with
  | Some b => b
  | None => x00
  end.

(** Little-endian digits, base 256. Negative numbers come out in two's
    complement because [/] floors and [mod] is non-negative. *)
Fixpoint le_encode (w : nat) (z : Z) : list byte :=
  match w with
  | O => []
  | S w' => byte_of_Z z :: le_encode w' (z / 256)
  end.

Fixpoint le_decode (bs : list byte) : Z :=
  match bs with
  | [] => 0
  | b :: rest => Z_of_byte b + 256 * le_decode rest
  end.

Definition bits (w : nat) : Z := 8 * Z.of_nat w.

(** Reinterpret an unsigned [w]-byte quantity as two's complement. *)
Definition to_signed (w : nat) (z : Z) : Z :=
  if z <? 2 ^ (bits w - 1) then z else z - 2 ^ bits w.

(** ** The heap: one buffer and one cursor object *)

Definition Buffer := list byte.

Record Heap := mkHeap { buffer : Buffer; offset : Z }.

(** The message of an [Error], kept as the parts of the template literal
    that builds it: literal text, and the values spliced in, each with the
    JavaScript type it has in the source. How the engine spells a spliced
    value is given by [part_text] below. *)
Inductive Part :=
| Lit (text : string)
| NumberValue (v : Z)
| BigIntValue (v : Z).

Definition Message := list Part.

Inductive Exn :=
| Error (message : Message)
| ERR_OUT_OF_RANGE
| ERR_BUFFER_OUT_OF_BOUNDS.

Inductive Res (A : Type) :=
| Ok (a : A) (h : Heap)
| Throw (e : Exn) (h : Heap).
Arguments Ok {A} a h.
Arguments Throw {A} e h.

Definition M (A : Type) := Heap -> Res A.

Definition ret {A} (a : A) : M A := fun h => Ok a h.

Definition bind {A B} (c : M A) (k : A -> M B) : M B :=
  fun h => match c h with
           | Ok a h' => k a h'
           | Throw e h' => Throw e h'
           end.

Definition throw {A} (e : Exn) : M A := fun h => Throw e h.

Declare Scope js_scope.
Delimit Scope js_scope with js.
Notation "x <- c ;; k" := (bind c (fun x => k))
  (at level 61, c at next level, right associativity) : js_scope.
Notation "c ;; k" := (bind c (fun _ => k))
  (at level 61, right associativity) : js_scope.
Local Open Scope js_scope.

(** [offset.offset] *)
Definition get_offset : M Z := fun h => Ok (offset h) h.

(** [offset.offset += n] *)
Definition add_offset (n : Z) : M unit :=
  fun h => Ok tt (mkHeap (buffer h) (offset h + n)).

Definition get_buffer : M Buffer := fun h => Ok (buffer h) h.

Definition set_buffer (b : Buffer) : M unit :=
  fun h => Ok tt (mkHeap b (offset h)).

(** ** Node's Buffer *)

Definition len (b : Buffer) : Z := Z.of_nat (length b).

(** Overwrite [length bs] bytes of [b] from index [off] on. *)
Definition splice (b : Buffer) (off : nat) (bs : list byte) : Buffer :=
  firstn off b ++ bs ++ skipn (off + length bs) b.

Definition in_bounds (b : Buffer) (off : Z) (w : nat) : bool :=
  (0 <=? off) && (off + Z.of_nat w <=? len b).

(** What the accessors throw when [off .. off + w) is not inside the
    buffer. *)
Definition boundsError (b : Buffer) (w : nat) : Exn :=
  if len b <? Z.of_nat w then ERR_BUFFER_OUT_OF_BOUNDS else ERR_OUT_OF_RANGE.

Definition int_min (signed : bool) (w : nat) : Z :=
  if signed then - 2 ^ (bits w - 1) else 0.

Definition int_max (signed : bool) (w : nat) : Z :=
  if signed then 2 ^ (bits w - 1) - 1 else 2 ^ bits w - 1.

(** [buffer.readInt8], [readInt16LE], [readInt32LE], [readBigInt64LE]
    ([signed = true]) and [readUInt8], [readUInt16LE], [readUint32LE],
    [readBigUInt64LE] ([signed = false]), [w] bytes wide. *)
Definition Buffer_read (signed : bool) (w : nat) (off : Z) : M Z :=
  b <- get_buffer ;;
  if in_bounds b off w then
    let raw := le_decode (firstn w (skipn (Z.to_nat off) b)) in
    ret (if signed then to_signed w raw else raw)
  else throw (boundsError b w).

(** [buffer.writeInt8], ..., [writeBigUint64LE]: the value is checked
    against the range of the width, then the span against the buffer, and
    only then are the [w] bytes stored. *)
Definition Buffer_write (signed : bool) (w : nat) (value off : Z) : M unit :=
  b <- get_buffer ;;
  if (value <? int_min signed w) || (value >? int_max signed w) then
    throw ERR_OUT_OF_RANGE
  else if in_bounds b off w then
    set_buffer (splice b (Z.to_nat off) (le_encode w value))
  else throw (boundsError b w).

(** [Buffer.alloc(size)]: zero-filled. *)
Definition Buffer_alloc (size : Z) : Exn + Buffer :=
  if size <? 0 then inl ERR_OUT_OF_RANGE
  else inr (repeat x00 (Z.to_nat size)).

(** [buffer.slice(start, end)]: indices are clamped to the buffer, a
    negative index counts from the end. *)
Definition clamp_index (b : Buffer) (i : Z) : Z :=
  if i <? 0 then Z.max (len b + i) 0 else Z.min i (len b).

Definition Buffer_slice (b : Buffer) (start stop : Z) : Buffer :=
  let s := Z.to_nat (clamp_index b start) in
  let e := Z.to_nat (clamp_index b stop) in
  firstn (e - s) (skipn s b).

(** [source.copy(buffer, targetStart)]: copies as many leading bytes of
    [source] as fit between [targetStart] and the end of the target;
    returns the number of bytes copied. *)
Definition Buffer_copy (source : Buffer) (targetStart : Z) : M Z :=
  b <- get_buffer ;;
  if targetStart <? 0 then throw ERR_OUT_OF_RANGE
  else if len b <=? targetStart then ret 0
  else
    let nb := Z.min (len source) (len b - targetStart) in
    set_buffer (splice b (Z.to_nat targetStart) (firstn (Z.to_nat nb) source)) ;;
    ret nb.

(** ** The serialization interfaces (borsh module) *)

Class Deserialize (T : Type) := read : M T.
Arguments read T {_}.

Class Serialize (T : Type) := {
  write : T -> M unit;
  serializedSize : T -> Z
}.

Class StaticSize (T : Type) := staticSize : Z.
Arguments staticSize T {_}.

Class Equals (A B : Type) := equals : A -> B -> bool.

(** [Account<D, T>] and [Instruction<D, T>]: the static [discriminant()]
    of the constructor [tCons]. *)
Class Account (D T : Type) := Account_discriminant : D.
Arguments Account_discriminant {D} T {_}.

Class Instruction (D T : Type) := Instruction_discriminant : D.
Arguments Instruction_discriminant {D} T {_}.

(** ** num.ts: the bounded integer classes *)

Inductive NumTy := i8 | i16 | i32 | i64 | u8 | u16 | u32 | u64.

Record Bounds := mkBounds { min : Z; max : Z }.

(** [static readonly bounds] of each class. *)
Definition bounds (T : NumTy) : Bounds :=
  match T with
  | i8 => mkBounds (-128) 127
  | i16 => mkBounds (-32768) 32767
  | i32 => mkBounds (-2147483648) 2147483647
  | i64 => mkBounds (-9223372036854775808) 9223372036854775807
  | u8 => mkBounds 0 255
  | u16 => mkBounds 0 65535
  | u32 => mkBounds 0 4294967295
  | u64 => mkBounds 0 0xffffffffffffffff
  end.

(** Which family of Buffer accessors the class calls: [Int] or [UInt]. *)
Definition signed (T : NumTy) : bool :=
  match T with
  | i8 | i16 | i32 | i64 => true
  | u8 | u16 | u32 | u64 => false
  end.

(** How many bytes the accessor called by the class touches:
    [Int8] 1, [Int16LE] 2, [Int32LE] 4, [BigInt64LE] 8, and likewise for
    the unsigned ones. *)
Definition accessor_width (T : NumTy) : nat :=
  match T with
  | i8 | u8 => 1
  | i16 | u16 => 2
  | i32 | u32 => 4
  | i64 | u64 => 8
  end%nat.

(** The constant of [offset.offset += _] in each class's [write]. *)
Definition write_step (T : NumTy) : Z :=
  match T with
  | i8 => 1
  | i16 => 2
  | i32 => 4
  | i64 => 8
  | u8 => 1
  | u16 => 1
  | u32 => 1
  | u64 => 1
  end.

(** The constant of [offset.offset += _] in each class's static [read]. *)
Definition read_step (T : NumTy) : Z :=
  match T with
  | i8 => 1
  | i16 => 2
  | i32 => 4
  | i64 => 8
  | u8 => 1
  | u16 => 1
  | u32 => 1
  | u64 => 1
  end.

(** What each class's [static staticSize()] returns. *)
Definition num_staticSize (T : NumTy) : Z :=
  match T with
  | i8 => 1
  | i16 => 2
  | i32 => 4
  | i64 => 8
  | u8 => 1
  | u16 => 1
  | u32 => 1
  | u64 => 1
  end.

(** An instance of class [T]: its public field [value]. *)
Record Num (T : NumTy) := mkNum { value : Z }.
Arguments value {T} _.

(** The decimal numeral of an integer, with a leading minus sign. *)
Definition show (z : Z) : string := NilZero.string_of_int (Z.to_int z).

(** How the engine spells a spliced value. A [bigint] is spelled in full.
    A [number] is a double: an integer of magnitude up to 2^53 is spelled
    in full; beyond that the engine prints the shortest digits that
    identify the double (2^64 comes out as 18446744073709552000) and an
    exponent from 1e21 on. That spelling is not modelled: the text is
    [None] there. *)
Definition part_text (p : Part) : option string :=
  match p with
  | Lit text => Some text
  | BigIntValue v => Some (show v)
  | NumberValue v => if Z.abs v <=? 2 ^ 53 then Some (show v) else None
  end.

Fixpoint message_text (m : Message) : option string :=
  match m with
  | [] => Some EmptyString
  | p :: rest =>
      match part_text p, message_text rest with
      | Some s, Some t => Some (s ++ t)%string
      | _, _ => None
      end
  end.

(** [i64] and [u64] hold a [bigint], with [bigint] bounds; the other six
    classes hold a [number]. *)
Definition is_bigint (T : NumTy) : bool :=
  match T with
  | i64 | u64 => true
  | i8 | i16 | i32 | u8 | u16 | u32 => false
  end.

Definition spliced (T : NumTy) (v : Z) : Part :=
  if is_bigint T then BigIntValue v else NumberValue v.

(** The template literal of the constructors. *)
Definition range_message (T : NumTy) (value : Z) : Message :=
  [spliced T value; Lit " is not in range "; spliced T (min (bounds T));
   Lit ".."; spliced T (max (bounds T))].

(** [new T(value)] *)
Definition new (T : NumTy) (value : Z) : M (Num T) :=
  if (value <? min (bounds T)) || (value >? max (bounds T)) then
    throw (Error (range_message T value))
  else ret (mkNum T value).

Definition num_write {T : NumTy} (this : Num T) : M unit :=
  off <- get_offset ;;
  Buffer_write (signed T) (accessor_width T) (value this) off ;;
  add_offset (write_step T).

Definition num_serializedSize {T : NumTy} (this : Num T) : Z :=
  num_staticSize T.

Definition num_read (T : NumTy) : M (Num T) :=
  off <- get_offset ;;
  value <- Buffer_read (signed T) (accessor_width T) off ;;
  add_offset (read_step T) ;;
  new T value.

(** [equals(other: T | number)]: [instanceof] picks the branch. *)
Definition num_equals {T : NumTy} (this : Num T) (other : Num T + Z) : bool :=
  match other with
  | inl other => value this =? value other
  | inr other => value this =? other
  end.

#[export] Instance Num_Serialize (T : NumTy) : Serialize (Num T) :=
  {| write := num_write; serializedSize := num_serializedSize |}.
#[export] Instance Num_Deserialize (T : NumTy) : Deserialize (Num T) :=
  num_read T.
#[export] Instance Num_StaticSize (T : NumTy) : StaticSize (Num T) :=
  num_staticSize T.
#[export] Instance Num_Equals (T : NumTy) : Equals (Num T) (Num T) :=
  fun this other => num_equals this (inl other).
#[export] Instance Num_Equals_raw (T : NumTy) : Equals (Num T) Z :=
  fun this other => num_equals this (inr other).

(** ** The borsh module: public keys and discriminant dispatch *)

(** web3.js [PublicKey], represented by the 32 bytes [toBuffer()] returns.
    The library keeps the key as a big-endian number of at most 32 bytes:
    fewer input bytes are padded with zeros on the left, more are refused.
    [buffer.slice] hands over at most 32 bytes. *)
Record PublicKey := mkPublicKey { toBuffer : Buffer }.

Definition PublicKey_new (bytes : Buffer) : M PublicKey :=
  if (length bytes <=? 32)%nat then
    ret (mkPublicKey (repeat x00 (32 - length bytes) ++ bytes))
  else throw (Error [Lit "Invalid public key input"]).

Fixpoint bytes_eqb (a b : list byte) : bool :=
  match a, b with
  | [], [] => true
  | x :: a', y :: b' => Byte.eqb x y && bytes_eqb a' b'
  | _, _ => false
  end.

Definition PublicKey_equals (a b : PublicKey) : bool :=
  bytes_eqb (toBuffer a) (toBuffer b).

Record SerializablePublicKey := mkSerializablePublicKey { key : PublicKey }.

Definition key_write (this : SerializablePublicKey) : M unit :=
  off <- get_offset ;;
  Buffer_copy (toBuffer (key this)) off ;;
  add_offset 32.

Definition key_serializedSize (this : SerializablePublicKey) : Z := 32.

Definition key_read : M SerializablePublicKey :=
  off <- get_offset ;;
  b <- get_buffer ;;
  key <- PublicKey_new (Buffer_slice b off (off + 32)) ;;
  add_offset 32 ;;
  ret (mkSerializablePublicKey key).

Definition key_staticSize : Z := 32.

Definition key_equals (this : SerializablePublicKey)
    (other : SerializablePublicKey + PublicKey) : bool :=
  match other with
  | inl other => PublicKey_equals (key this) (key other)
  | inr other => PublicKey_equals (key this) other
  end.

#[export] Instance Key_Serialize : Serialize SerializablePublicKey :=
  {| write := key_write; serializedSize := key_serializedSize |}.
#[export] Instance Key_Deserialize : Deserialize SerializablePublicKey :=
  key_read.
#[export] Instance Key_StaticSize : StaticSize SerializablePublicKey :=
  key_staticSize.
#[export] Instance Key_Equals : Equals SerializablePublicKey SerializablePublicKey :=
  fun this other => key_equals this (inl other).
#[export] Instance Key_Equals_raw : Equals SerializablePublicKey PublicKey :=
  fun this other => key_equals this (inr other).

(** The body of [readAccount], on the caller's buffer and cursor. *)
Definition readAccount_body (D T : Type) {ED : Equals D D}
    {DD : Deserialize D} {DT : Deserialize T} {AD : Account D T}
    : M (option T) :=
  discriminant <- read D ;;
  if equals discriminant (Account_discriminant T) then
    account <- read T ;;
    ret (Some account)
  else ret None.

(** [readAccount(dCons, tCons, buffer, offset = { offset: 0 })]. The
    optional fourth argument is [None] when the caller leaves it out, and a
    fresh cursor object is made for the call. *)
Definition readAccount (D T : Type) {ED : Equals D D}
    {DD : Deserialize D} {DT : Deserialize T} {AD : Account D T}
    (buffer : Buffer) (offset : option Z) : Res (option T) :=
  let offset := match offset with Some o => o | None => 0 end in
  readAccount_body D T (mkHeap buffer offset).

(** [serializeInstruction(tCons, instruction)]: the buffer and the cursor
    are local to the call; the buffer is what is returned. *)
Definition serializeInstruction {D T : Type} {SD : Serialize D}
    {ST : Serialize T} {ID : Instruction D T} (instruction : T)
    : Exn + Buffer :=
  let discriminant := Instruction_discriminant T in
  match Buffer_alloc (serializedSize discriminant + serializedSize instruction) with
  | inl e => inl e
  | inr buffer =>
      match (write discriminant ;; write instruction) (mkHeap buffer 0) with
      | Ok _ (mkHeap buffer _) => inr buffer
      | Throw e _ => inl e
      end
  end.

(** ** Auxiliary definitions for the statements *)

(** [write] stores [enc] at the cursor and moves the cursor past it. *)
Definition writes_at_cursor {A : Type} {SA : Serialize A} (a : A)
    (enc : list byte) : Prop :=
  forall (b : Buffer) (off : Z),
    0 <= off -> off + len enc <= len b ->
    write a (mkHeap b off)
    = Ok tt (mkHeap (splice b (Z.to_nat off) enc) (off + len enc)).

(** The integer a decimal numeral stands for. *)
Definition decimal_value (s : string) : option Z :=
  option_map Z.of_int (NilZero.int_of_string s).

(** [needle] occurs somewhere in [hay]. *)
Fixpoint contains (needle hay : string) : bool :=
  String.prefix needle hay
  || match hay with
     | EmptyString => false
     | String _ rest => contains needle rest
     end.

(** A record class tagged with the given discriminant value. *)
Definition account_tagged (D T : Type) (d : D) : Account D T := d.
Definition instruction_tagged (D T : Type) (d : D) : Instruction D T := d.

(** The twelve bytes [07 00 00 00 FF FF FF FF FF FF FF FF]. *)
Definition tagged_minus_one : Buffer :=
  [x07; x00; x00; x00; xff; xff; xff; xff; xff; xff; xff; xff].

(** A 32-byte key and a 40-byte buffer to try the identifier codec on. *)
Definition sample_key : PublicKey := mkPublicKey (repeat xa5 32).
Definition sample_buffer : Buffer := repeat x11 40.

(** The heap a call leaves behind, whether it returns or throws. *)
Definition heap_of {A : Type} (r : Res A) : Heap :=
  match r with
  | Ok _ h => h
  | Throw _ h => h
  end.

(** The exceptions of the Buffer accessors for a span outside the buffer. *)
Definition is_bounds_error (e : Exn) : Prop :=
  e = ERR_OUT_OF_RANGE \/ e = ERR_BUFFER_OUT_OF_BOUNDS.

Ltac run :=
  unfold bind, ret, throw, get_offset, add_offset, get_buffer, set_buffer;
  cbn [buffer offset].

(** * Properties *)

(** ** Bytes and little-endian digits *)

Lemma Z_of_byte_range (b : byte) : 0 <= Z_of_byte b < 256.
Proof.
  unfold Z_of_byte. pose proof (Byte.to_N_bounded b). lia.
Qed.

Lemma Z_of_byte_of_Z (z : Z) : Z_of_byte (byte_of_Z z) = z mod 256.
Proof.
  unfold Z_of_byte, byte_of_Z.
  pose proof (Z.mod_pos_bound z 256 eq_refl) as Hm.
  destruct (Byte.of_N (Z.to_N (z mod 256))) as [b|] eqn:E.
  - apply Byte.to_of_N in E. rewrite E. apply Z2N.id. lia.
  - apply Byte.of_N_None_iff in E. lia.
Qed.

Lemma bits_S (w : nat) : 2 ^ bits (S w) = 256 * 2 ^ bits w.
Proof.
  unfold bits. replace (8 * Z.of_nat (S w)) with (8 + 8 * Z.of_nat w) by lia.
  rewrite Z.pow_add_r by lia. reflexivity.
Qed.

Lemma pow_bits_pos (w : nat) : 0 < 2 ^ bits w.
Proof. apply Z.pow_pos_nonneg; unfold bits; lia. Qed.

Lemma pow_bits_half (w : nat) :
  (0 < w)%nat -> 2 ^ bits w = 2 * 2 ^ (bits w - 1) /\ 0 < 2 ^ (bits w - 1).
Proof.
  intros Hw. unfold bits. split.
  - rewrite <- Z.pow_succ_r by lia. f_equal. lia.
  - apply Z.pow_pos_nonneg; lia.
Qed.

Lemma length_le_encode (w : nat) (z : Z) : length (le_encode w z) = w.
Proof.
  revert z. induction w as [|w IH]; intros z; simpl; [reflexivity|].
  now rewrite IH.
Qed.

Lemma le_decode_encode (w : nat) (z : Z) :
  le_decode (le_encode w z) = z mod 2 ^ bits w.
Proof.
  revert z. induction w as [|w IH]; intros z.
  - simpl. now rewrite Z.mod_1_r.
  - cbn [le_encode le_decode]. rewrite IH, Z_of_byte_of_Z, bits_S.
    rewrite Z.rem_mul_r; [reflexivity | lia | apply pow_bits_pos].
Qed.

Lemma le_decode_range (bs : list byte) :
  0 <= le_decode bs < 2 ^ bits (length bs).
Proof.
  induction bs as [|b bs IH].
  - simpl. lia.
  - cbn [le_decode length]. rewrite bits_S.
    pose proof (Z_of_byte_range b). lia.
Qed.

Lemma to_signed_range (w : nat) (z : Z) :
  (0 < w)%nat -> 0 <= z < 2 ^ bits w ->
  - 2 ^ (bits w - 1) <= to_signed w z <= 2 ^ (bits w - 1) - 1.
Proof.
  intros Hw Hz. destruct (pow_bits_half w Hw) as [E Hp].
  unfold to_signed. destruct (Z.ltb_spec z (2 ^ (bits w - 1))); lia.
Qed.

Lemma to_signed_wrap (w : nat) (z : Z) :
  (0 < w)%nat -> - 2 ^ (bits w - 1) <= z <= 2 ^ (bits w - 1) - 1 ->
  to_signed w (z mod 2 ^ bits w) = z.
Proof.
  intros Hw Hz. destruct (pow_bits_half w Hw) as [E Hp].
  unfold to_signed. destruct (Z_lt_le_dec z 0) as [Hneg|Hpos].
  - replace (z mod 2 ^ bits w) with (z + 2 ^ bits w).
    + destruct (Z.ltb_spec (z + 2 ^ bits w) (2 ^ (bits w - 1))); lia.
    + apply Z.mod_unique with (q := -1); lia.
  - rewrite Z.mod_small by lia.
    destruct (Z.ltb_spec z (2 ^ (bits w - 1))); lia.
Qed.

(** Decoding what was encoded gives the value back, for the signed and
    the unsigned accessors. *)
Lemma decode_encode (sg : bool) (w : nat) (v : Z) :
  (0 < w)%nat -> int_min sg w <= v <= int_max sg w ->
  (let raw := le_decode (le_encode w v) in
   if sg then to_signed w raw else raw) = v.
Proof.
  intros Hw Hv. cbv zeta. rewrite le_decode_encode.
  destruct sg; unfold int_min, int_max in Hv.
  - now apply to_signed_wrap.
  - apply Z.mod_small. lia.
Qed.

(** ** Splicing bytes into a buffer *)

Lemma length_splice (b : Buffer) (off : nat) (bs : list byte) :
  (off + length bs <= length b)%nat -> length (splice b off bs) = length b.
Proof.
  intros H. unfold splice.
  rewrite !length_app, length_firstn, length_skipn. lia.
Qed.

Lemma splice_span (b : Buffer) (off : nat) (bs : list byte) :
  (off <= length b)%nat ->
  firstn (length bs) (skipn off (splice b off bs)) = bs.
Proof.
  intros H. unfold splice.
  rewrite skipn_app, length_firstn, Nat.min_l by lia.
  rewrite skipn_firstn_comm, Nat.sub_diag. simpl.
  rewrite firstn_app, Nat.sub_diag, firstn_all. simpl.
  now rewrite app_nil_r.
Qed.

Lemma splice_outside (b : Buffer) (off : nat) (bs : list byte) (i : nat) :
  (off + length bs <= length b)%nat ->
  (i < off \/ off + length bs <= i)%nat ->
  nth_error (splice b off bs) i = nth_error b i.
Proof.
  intros Hfit Hi. unfold splice. destruct Hi as [Hi|Hi].
  - rewrite nth_error_app1 by (rewrite length_firstn; lia).
    now rewrite nth_error_firstn, (proj2 (Nat.ltb_lt i off) Hi).
  - rewrite nth_error_app2 by (rewrite length_firstn; lia).
    rewrite length_firstn, Nat.min_l by lia.
    rewrite nth_error_app2 by lia.
    rewrite nth_error_skipn. f_equal. lia.
Qed.

(** ** The integer classes *)

(** The declared bounds of every class are the full range of the accessor
    it calls. *)
Lemma bounds_full_range (T : NumTy) :
  min (bounds T) = int_min (signed T) (accessor_width T)
  /\ max (bounds T) = int_max (signed T) (accessor_width T).
Proof. destruct T; split; reflexivity. Qed.

Lemma accessor_width_pos (T : NumTy) : (0 < accessor_width T)%nat.
Proof. destruct T; simpl; lia. Qed.

Lemma new_ok (T : NumTy) (v : Z) (h : Heap) :
  min (bounds T) <= v <= max (bounds T) -> new T v h = Ok (mkNum T v) h.
Proof.
  intros [Hlo Hhi]. unfold new.
  destruct (Z.ltb_spec v (min (bounds T))); [lia|].
  destruct (Z.gtb_spec v (max (bounds T))); [lia|]. reflexivity.
Qed.

Lemma new_throw (T : NumTy) (v : Z) (h : Heap) :
  v < min (bounds T) \/ max (bounds T) < v ->
  new T v h = Throw (Error (range_message T v)) h.
Proof.
  intros Hout. unfold new.
  destruct (Z.ltb_spec v (min (bounds T))); [reflexivity|].
  destruct (Z.gtb_spec v (max (bounds T))); [reflexivity|]. lia.
Qed.

Lemma in_bounds_true (b : Buffer) (off : Z) (w : nat) :
  0 <= off -> off + Z.of_nat w <= len b -> in_bounds b off w = true.
Proof.
  intros H0 H1. unfold in_bounds.
  apply andb_true_intro. split; apply Z.leb_le; assumption.
Qed.

Lemma Buffer_write_ok (sg : bool) (w : nat) (v off : Z) (b : Buffer) (c : Z) :
  int_min sg w <= v <= int_max sg w ->
  0 <= off -> off + Z.of_nat w <= len b ->
  Buffer_write sg w v off (mkHeap b c)
  = Ok tt (mkHeap (splice b (Z.to_nat off) (le_encode w v)) c).
Proof.
  intros [Hlo Hhi] H0 H1. unfold Buffer_write. run.
  destruct (Z.ltb_spec v (int_min sg w)); [lia|].
  destruct (Z.gtb_spec v (int_max sg w)); [lia|]. cbn [orb].
  now rewrite in_bounds_true.
Qed.

Lemma Buffer_read_ok (sg : bool) (w : nat) (off : Z) (b : Buffer) (c : Z) :
  0 <= off -> off + Z.of_nat w <= len b ->
  Buffer_read sg w off (mkHeap b c)
  = Ok (let raw := le_decode (firstn w (skipn (Z.to_nat off) b)) in
        if sg then to_signed w raw else raw) (mkHeap b c).
Proof.
  intros H0 H1. unfold Buffer_read. run. now rewrite in_bounds_true.
Qed.

(** A value read by an accessor lies in the range of its width. *)
Lemma Buffer_read_range (sg : bool) (w : nat) (off : Z) (b : Buffer) :
  (0 < w)%nat -> 0 <= off -> off + Z.of_nat w <= len b ->
  let raw := le_decode (firstn w (skipn (Z.to_nat off) b)) in
  int_min sg w <= (if sg then to_signed w raw else raw) <= int_max sg w.
Proof.
  intros Hw H0 H1 raw.
  assert (Hlen : length (firstn w (skipn (Z.to_nat off) b)) = w).
  { rewrite length_firstn, length_skipn. unfold len in H1. lia. }
  pose proof (le_decode_range (firstn w (skipn (Z.to_nat off) b))) as Hr.
  rewrite Hlen in Hr. fold raw in Hr.
  unfold int_min, int_max. destruct sg.
  - now apply to_signed_range.
  - lia.
Qed.

(** [write] of an instance that holds an in-range value, with room in the
    buffer: the accessor's bytes are stored at the cursor, and the cursor
    moves by the class's own constant. *)
Lemma num_write_ok (T : NumTy) (v : Z) (b : Buffer) (off : Z) :
  min (bounds T) <= v <= max (bounds T) ->
  0 <= off -> off + Z.of_nat (accessor_width T) <= len b ->
  num_write (mkNum T v) (mkHeap b off)
  = Ok tt (mkHeap (splice b (Z.to_nat off) (le_encode (accessor_width T) v))
                  (off + write_step T)).
Proof.
  intros Hv H0 H1. destruct (bounds_full_range T) as [Emin Emax].
  unfold num_write. run. cbn [value].
  rewrite Buffer_write_ok by (rewrite <- ?Emin, <- ?Emax; assumption).
  reflexivity.
Qed.

(** Static [read] with room in the buffer: it never throws, leaves the
    buffer alone, and moves the cursor by the class's own constant. *)
Lemma num_read_ok (T : NumTy) (b : Buffer) (off : Z) :
  0 <= off -> off + Z.of_nat (accessor_width T) <= len b ->
  num_read T (mkHeap b off)
  = Ok (mkNum T
          (let raw := le_decode (firstn (accessor_width T)
                                        (skipn (Z.to_nat off) b)) in
           if signed T then to_signed (accessor_width T) raw else raw))
       (mkHeap b (off + read_step T)).
Proof.
  intros H0 H1. destruct (bounds_full_range T) as [Emin Emax].
  unfold num_read. run. rewrite Buffer_read_ok by assumption.
  cbn [buffer offset]. apply new_ok. rewrite Emin, Emax.
  apply Buffer_read_range; [apply accessor_width_pos | assumption..].
Qed.

(** Reading at the offset a value was written at gives the value back, for
    all eight classes. *)
Lemma num_read_after_write (T : NumTy) (v : Z) (b : Buffer) (off : Z) :
  min (bounds T) <= v <= max (bounds T) ->
  0 <= off -> off + Z.of_nat (accessor_width T) <= len b ->
  let b' := splice b (Z.to_nat off) (le_encode (accessor_width T) v) in
  num_read T (mkHeap b' off) = Ok (mkNum T v) (mkHeap b' (off + read_step T)).
Proof.
  intros Hv H0 H1 b'. destruct (bounds_full_range T) as [Emin Emax].
  assert (Hfit : (Z.to_nat off + accessor_width T <= length b)%nat)
    by (unfold len in H1; lia).
  rewrite num_read_ok; [| assumption |].
  - do 2 f_equal. cbv zeta.
    pose proof (splice_span b (Z.to_nat off) (le_encode (accessor_width T) v))
      as Hs.
    rewrite length_le_encode in Hs. fold b' in Hs. rewrite Hs by lia.
    apply decode_encode; [apply accessor_width_pos|].
    rewrite <- Emin, <- Emax. assumption.
  - unfold len, b'. rewrite length_splice; rewrite ?length_le_encode;
      [exact H1 | exact Hfit].
Qed.

(** For the classes whose cursor constant is the accessor's width, the
    cursor lands just past the bytes that were touched. *)
Lemma step_is_width (T : NumTy) :
  In T [i8; i16; i32; i64; u8] ->
  write_step T = Z.of_nat (accessor_width T)
  /\ read_step T = Z.of_nat (accessor_width T)
  /\ num_staticSize T = Z.of_nat (accessor_width T).
Proof.
  simpl. intros [<-|[<-|[<-|[<-|[<-|[]]]]]]; repeat split.
Qed.

(** For [u16], [u32] and [u64] the three constants are 1. *)
Lemma step_is_one (T : NumTy) :
  In T [u16; u32; u64] ->
  write_step T = 1 /\ read_step T = 1 /\ num_staticSize T = 1
  /\ (1 < accessor_width T)%nat.
Proof.
  simpl. intros [<-|[<-|[<-|[]]]]; repeat split; simpl; lia.
Qed.

(** With an in-range value and room in the buffer, the five classes whose
    constants agree with their accessor leave the cursor just past the
    bytes they stored or fetched. *)
Lemma cursor_moves_by_width (T : NumTy) (v : Z) (b : Buffer) (off : Z) :
  In T [i8; i16; i32; i64; u8] ->
  min (bounds T) <= v <= max (bounds T) ->
  0 <= off -> off + Z.of_nat (accessor_width T) <= len b ->
  (exists b', num_write (mkNum T v) (mkHeap b off)
              = Ok tt (mkHeap b' (off + Z.of_nat (accessor_width T))))
  /\ (exists n, num_read T (mkHeap b off)
                = Ok n (mkHeap b (off + Z.of_nat (accessor_width T)))).
Proof.
  intros HT Hv H0 H1. destruct (step_is_width T HT) as (Ew & Er & _).
  rewrite num_write_ok, num_read_ok, Ew, Er by assumption.
  split; eexists; reflexivity.
Qed.

(** Under the same conditions [u16], [u32] and [u64] leave the cursor one
    byte on, inside the bytes they stored or fetched. *)
Lemma cursor_moves_by_one (T : NumTy) (v : Z) (b : Buffer) (off : Z) :
  In T [u16; u32; u64] ->
  min (bounds T) <= v <= max (bounds T) ->
  0 <= off -> off + Z.of_nat (accessor_width T) <= len b ->
  (exists b', num_write (mkNum T v) (mkHeap b off) = Ok tt (mkHeap b' (off + 1)))
  /\ (exists n, num_read T (mkHeap b off) = Ok n (mkHeap b (off + 1)))
  /\ off + 1 < off + Z.of_nat (accessor_width T).
Proof.
  intros HT Hv H0 H1. destruct (step_is_one T HT) as (Ew & Er & _ & Hw).
  rewrite num_write_ok, num_read_ok, Ew, Er by assumption.
  repeat split; try (eexists; reflexivity). lia.
Qed.

(** ** Discriminant dispatch, for any discriminant and record classes *)

Section Dispatch.
Context {D T : Type}.
Context {ED : Equals D D} {DD : Deserialize D} {DT : Deserialize T}.
Context {AD : Account D T}.

(** A discriminant that differs: the outcome is [null], in the heap the
    discriminant's [read] left behind. *)
Lemma readAccount_body_mismatch (h h' : Heap) (d : D) :
  read D h = Ok d h' ->
  equals d (Account_discriminant T) = false ->
  readAccount_body D T h = Ok None h'.
Proof.
  intros Hd Hne. unfold readAccount_body, bind. rewrite Hd, Hne.
  reflexivity.
Qed.

(** A discriminant that agrees: the body is read from where the
    discriminant's [read] left the cursor. *)
Lemma readAccount_body_match (h h' h'' : Heap) (d : D) (t : T) :
  read D h = Ok d h' ->
  equals d (Account_discriminant T) = true ->
  read T h' = Ok t h'' ->
  readAccount_body D T h = Ok (Some t) h''.
Proof.
  intros Hd Heq Ht. unfold readAccount_body, bind. rewrite Hd, Heq, Ht.
  reflexivity.
Qed.
End Dispatch.

Section Writer.
Context {D T : Type}.
Context {SD : Serialize D} {ST : Serialize T} {ID : Instruction D T}.

(** When both [write]s follow the cursor protocol and both sizes are the
    encoded lengths, the result is the two encodings back to back. *)
Lemma serializeInstruction_layout (instruction : T) (encd enci : list byte) :
  writes_at_cursor (Instruction_discriminant T) encd ->
  serializedSize (Instruction_discriminant T) = len encd ->
  writes_at_cursor instruction enci ->
  serializedSize instruction = len enci ->
  serializeInstruction instruction = inr (encd ++ enci).
Proof.
  intros Wd Sd Wi Si. unfold serializeInstruction, Buffer_alloc.
  rewrite Sd, Si. unfold len.
  destruct (Z.ltb_spec (Z.of_nat (length encd) + Z.of_nat (length enci)) 0);
    [lia|].
  replace (Z.to_nat (Z.of_nat (length encd) + Z.of_nat (length enci)))
    with (length encd + length enci)%nat by lia.
  unfold bind.
  rewrite Wd by (unfold len; rewrite ?repeat_length; lia).
  assert (E1 : splice (repeat x00 (length encd + length enci)) (Z.to_nat 0) encd
               = encd ++ repeat x00 (length enci)).
  { unfold splice. simpl. f_equal.
    rewrite repeat_app, skipn_app, repeat_length, Nat.sub_diag.
    rewrite skipn_all2 by (rewrite repeat_length; lia). reflexivity. }
  rewrite E1.
  rewrite Wi by (unfold len; rewrite ?length_app, ?repeat_length; lia).
  f_equal. unfold splice, len.
  replace (Z.to_nat (0 + Z.of_nat (length encd))) with (length encd) by lia.
  rewrite firstn_app, Nat.sub_diag, firstn_all. simpl. rewrite app_nil_r.
  f_equal.
  rewrite skipn_all2 by (rewrite length_app, repeat_length; lia).
  apply app_nil_r.
Qed.
End Writer.

(** The five classes whose constants agree with their accessor follow the
    cursor protocol. *)
Lemma num_writes_at_cursor (T : NumTy) (v : Z) :
  In T [i8; i16; i32; i64; u8] ->
  min (bounds T) <= v <= max (bounds T) ->
  writes_at_cursor (mkNum T v) (le_encode (accessor_width T) v)
  /\ serializedSize (mkNum T v) = len (le_encode (accessor_width T) v).
Proof.
  intros HT Hv. destruct (step_is_width T HT) as (Ew & _ & Es).
  unfold len. rewrite length_le_encode. split.
  - intros b off H0 H1. cbn [write Num_Serialize].
    unfold len in *. rewrite length_le_encode in *.
    rewrite num_write_ok, Ew by assumption. reflexivity.
  - exact Es.
Qed.

(** ** Error messages *)

Lemma prefix_app (s t : string) : String.prefix s (s ++ t)%string = true.
Proof.
  induction s as [|a s IH]; simpl; [now destruct t|].
  destruct (Ascii.ascii_dec a a); [exact IH | congruence].
Qed.

Lemma contains_app (needle pre post : string) :
  contains needle (pre ++ needle ++ post)%string = true.
Proof.
  induction pre as [|a pre IH].
  - cbn [String.append]. destruct (needle ++ post)%string eqn:E;
      cbn [contains]; rewrite <- E, prefix_app; reflexivity.
  - cbn [String.append contains]. rewrite IH. apply orb_true_r.
Qed.

Lemma sapp_assoc (a b c : string) :
  ((a ++ b) ++ c = a ++ (b ++ c))%string.
Proof. induction a as [|x a IH]; simpl; congruence. Qed.

Lemma sapp_nil_r (a : string) : (a ++ EmptyString = a)%string.
Proof. induction a as [|x a IH]; simpl; congruence. Qed.

Lemma decimal_value_show (z : Z) : decimal_value (show z) = Some z.
Proof.
  unfold decimal_value, show. rewrite NilZero.isi.
  - simpl. f_equal. apply DecimalZ.of_to.
  - destruct z; simpl; try discriminate.
    intros [= E]. revert E. apply Unsigned.to_uint_nonnil.
  - destruct z; simpl; try discriminate.
    intros [= E]. revert E. apply Unsigned.to_uint_nonnil.
Qed.

Lemma spliced_text (T : NumTy) (x : Z) :
  is_bigint T = true \/ Z.abs x <= 2 ^ 53 ->
  part_text (spliced T x) = Some (show x).
Proof.
  intros H. unfold spliced. destruct (is_bigint T) eqn:E; cbn [part_text].
  - reflexivity.
  - destruct H as [H|H]; [discriminate|].
    now rewrite (proj2 (Z.leb_le _ _) H).
Qed.

(** The bounds of the six [number] classes are spelled in full. *)
Lemma bounds_spelled (T : NumTy) :
  is_bigint T = true
  \/ (Z.abs (min (bounds T)) <= 2 ^ 53 /\ Z.abs (max (bounds T)) <= 2 ^ 53).
Proof.
  destruct T; simpl; try (left; reflexivity); right; lia.
Qed.

Lemma range_message_text (T : NumTy) (v : Z) :
  is_bigint T = true \/ Z.abs v <= 2 ^ 53 ->
  message_text (range_message T v)
  = Some (show v ++ " is not in range " ++ show (min (bounds T)) ++ ".."
            ++ show (max (bounds T)))%string.
Proof.
  intros Hv. unfold range_message. cbn [message_text].
  assert (Hmin : part_text (spliced T (min (bounds T)))
                 = Some (show (min (bounds T)))).
  { apply spliced_text. destruct (bounds_spelled T) as [B|[B _]]; tauto. }
  assert (Hmax : part_text (spliced T (max (bounds T)))
                 = Some (show (max (bounds T)))).
  { apply spliced_text. destruct (bounds_spelled T) as [B|[_ B]]; tauto. }
  rewrite (spliced_text T v Hv), Hmin, Hmax. cbn [part_text].
  now rewrite sapp_nil_r.
Qed.

Lemma range_text_contains (sv smin smax : string) :
  contains sv (sv ++ " is not in range " ++ smin ++ ".." ++ smax)%string = true
  /\ contains (smin ++ ".." ++ smax)%string
       (sv ++ " is not in range " ++ smin ++ ".." ++ smax)%string = true.
Proof.
  split.
  - apply (contains_app sv EmptyString).
  - set (range := (smin ++ ".." ++ smax)%string).
    rewrite <- (sapp_nil_r range) at 2. rewrite <- sapp_assoc.
    apply contains_app.
Qed.

(** Beyond 2^53 the text of a spliced [number] is left open: the message
    of [new u32(2 ** 64)] holds the value, its text is not given. *)
Lemma range_message_beyond_exact (h : Heap) :
  new u32 (2 ^ 64) h
  = Throw (Error [NumberValue (2 ^ 64); Lit " is not in range ";
                  NumberValue 0; Lit ".."; NumberValue 4294967295]) h
  /\ message_text (range_message u32 (2 ^ 64)) = None.
Proof. split; reflexivity. Qed.

(** ** The identifier codec *)

Lemma bytes_eqb_refl (a : list byte) : bytes_eqb a a = true.
Proof.
  induction a as [|x a IH]; simpl; [reflexivity|].
  rewrite IH. now rewrite (Byte.byte_dec_lb eq_refl).
Qed.

Lemma Buffer_copy_fits (source b : Buffer) (off c : Z) :
  0 <= off -> off + len source <= len b -> (0 < length source)%nat ->
  Buffer_copy source off (mkHeap b c)
  = Ok (len source) (mkHeap (splice b (Z.to_nat off) source) c).
Proof.
  intros H0 H1 Hs. unfold Buffer_copy. run. unfold len in *.
  destruct (Z.ltb_spec off 0); [lia|].
  destruct (Z.leb_spec (Z.of_nat (length b)) off); [lia|].
  rewrite Z.min_l by lia. run.
  rewrite Nat2Z.id, firstn_all. reflexivity.
Qed.

Lemma Buffer_slice_inside (b : Buffer) (off : Z) (n : nat) :
  0 <= off -> off + Z.of_nat n <= len b ->
  Buffer_slice b off (off + Z.of_nat n) = firstn n (skipn (Z.to_nat off) b).
Proof.
  intros H0 H1. unfold Buffer_slice, clamp_index.
  destruct (Z.ltb_spec off 0); [lia|].
  destruct (Z.ltb_spec (off + Z.of_nat n) 0); [lia|].
  rewrite !Z.min_l by lia. f_equal. lia.
Qed.

(** * The properties of the specification *)

(** C1: every successful [write] or [read] of a bounded numeric class
    should move the cursor by the class's byte width (1, 2, 4, 8), the
    number of bytes the call stored or fetched. Here [u16.write] stores
    two bytes, [u32.read] fetches four and [u64.write] stores eight, and
    each moves the cursor by one. *)
Theorem cursor_step_of_u16_u32_u64 :
  num_write (mkNum u16 0x0201) (mkHeap [x00; x00; x00] 0)
  = Ok tt (mkHeap [x01; x02; x00] 1)
  /\ num_read u32 (mkHeap [x01; x02; x03; x04] 0)
     = Ok (mkNum u32 0x04030201) (mkHeap [x01; x02; x03; x04] 1)
  /\ num_write (mkNum u64 0x0807060504030201) (mkHeap (repeat x00 8) 0)
     = Ok tt (mkHeap [x01; x02; x03; x04; x05; x06; x07; x08] 1)
  /\ write_step u16 <> 2 /\ read_step u32 <> 4 /\ write_step u64 <> 8.
Proof.
  repeat split; try reflexivity; simpl; lia.
Qed.

(** C2: [serializedSize()] and [staticSize()] should return the number of
    bytes a value occupies when written (u16 2, u32 4, u64 8). For these
    three classes both return 1, whatever the value, while [write] stores
    2, 4 and 8 bytes. *)
Theorem sizes_of_u16_u32_u64 (v : Z) :
  (staticSize (Num u16) = 1 /\ serializedSize (mkNum u16 v) = 1
   /\ length (le_encode (accessor_width u16) v) = 2%nat)
  /\ (staticSize (Num u32) = 1 /\ serializedSize (mkNum u32 v) = 1
      /\ length (le_encode (accessor_width u32) v) = 4%nat)
  /\ (staticSize (Num u64) = 1 /\ serializedSize (mkNum u64 v) = 1
      /\ length (le_encode (accessor_width u64) v) = 8%nat).
Proof.
  repeat split; reflexivity.
Qed.

(** C3: a [u32] discriminant 7 and an [i64] body -1 should serialize to
    [07 00 00 00 FF FF FF FF FF FF FF FF]. [serializeInstruction] returns
    the nine bytes [07 FF FF FF FF FF FF FF FF]. Reading the twelve bytes
    of the specification against discriminant 7 yields -16777216 and not
    -1; against discriminant 8 it yields [null] with the cursor at 1 and
    not at 4. *)
Theorem scenario_u32_tag_i64_body :
  serializeInstruction (ID := instruction_tagged (Num u32) (Num i64) (mkNum u32 7))
    (mkNum i64 (-1))
  = inr [x07; xff; xff; xff; xff; xff; xff; xff; xff]
  /\ readAccount (Num u32) (Num i64)
       (AD := account_tagged (Num u32) (Num i64) (mkNum u32 7))
       tagged_minus_one None
     = Ok (Some (mkNum i64 (-16777216))) (mkHeap tagged_minus_one 9)
  /\ readAccount (Num u32) (Num i64)
       (AD := account_tagged (Num u32) (Num i64) (mkNum u32 8))
       tagged_minus_one None
     = Ok None (mkHeap tagged_minus_one 1).
Proof.
  repeat split; reflexivity.
Qed.

(** C4: a constructor throws on a value below [min] or above [max]. The
    message is the value, the text " is not in range ", [min], the text
    "..", and [max]; where the engine spells the value in full (any
    [bigint], a [number] of magnitude up to 2^53) the text of the message
    contains the decimal numeral of the value and the range [min..max].
    The constructor accepts [min] and [max]; static [read] hands the value
    it decoded to the same constructor, so whatever [new] or [read]
    returns is within bounds. *)
Theorem constructor_range_check (T : NumTy) (v : Z) (h : Heap) :
  (v < min (bounds T) \/ max (bounds T) < v ->
   exists message,
     new T v h = Throw (Error message) h
     /\ (let part := fun x : Z =>
                       if is_bigint T then BigIntValue x else NumberValue x in
         message = [part v; Lit " is not in range "; part (min (bounds T));
                    Lit ".."; part (max (bounds T))])
     /\ (is_bigint T = true \/ Z.abs v <= 2 ^ 53 ->
         exists sv smin smax : string,
           message_text message
           = Some (sv ++ " is not in range " ++ smin ++ ".." ++ smax)%string
           /\ decimal_value sv = Some v
           /\ decimal_value smin = Some (min (bounds T))
           /\ decimal_value smax = Some (max (bounds T))
           /\ contains sv
                (sv ++ " is not in range " ++ smin ++ ".." ++ smax)%string
              = true
           /\ contains (smin ++ ".." ++ smax)%string
                (sv ++ " is not in range " ++ smin ++ ".." ++ smax)%string
              = true))
  /\ new T (min (bounds T)) h = Ok (mkNum T (min (bounds T))) h
  /\ new T (max (bounds T)) h = Ok (mkNum T (max (bounds T))) h
  /\ (forall raw h',
        Buffer_read (signed T) (accessor_width T) (offset h) h = Ok raw h' ->
        read (Num T) h
        = new T raw (mkHeap (buffer h') (offset h' + read_step T)))
  /\ (forall n h', new T v h = Ok n h' ->
        min (bounds T) <= value n <= max (bounds T))
  /\ (forall n h', read (Num T) h = Ok n h' ->
        min (bounds T) <= value n <= max (bounds T)).
Proof.
  assert (Hnew : forall w g n g', new T w g = Ok n g' ->
                   min (bounds T) <= value n <= max (bounds T)).
  { intros w g n g'. unfold new.
    destruct (Z.ltb_spec w (min (bounds T))); [discriminate|].
    destruct (Z.gtb_spec w (max (bounds T))); [discriminate|].
    cbn [orb]. unfold ret. intros [= <- _]. cbn [value]. lia. }
  assert (Hle : min (bounds T) <= max (bounds T)) by (destruct T; simpl; lia).
  split; [|split; [|split; [|split; [|split]]]].
  - intros Hout. exists (range_message T v). split; [|split].
    + now apply new_throw.
    + reflexivity.
    + intros Hv.
      exists (show v), (show (min (bounds T))), (show (max (bounds T))).
      split; [now apply range_message_text|].
      repeat (split; [apply decimal_value_show|]).
      apply range_text_contains.
  - apply new_ok. lia.
  - apply new_ok. lia.
  - intros raw h' Hr. unfold read, Num_Deserialize, num_read. run.
    rewrite Hr. reflexivity.
  - intros n h'. apply Hnew.
  - intros n h'. unfold read, Num_Deserialize, num_read. run.
    destruct (Buffer_read (signed T) (accessor_width T) (offset h) h)
      as [raw g|e g]; [apply Hnew | discriminate].
Qed.

Lemma constructor_range_check_witness :
  exists message,
    new u8 256 (mkHeap [] 0) = Throw (Error message) (mkHeap [] 0)
    /\ message_text message = Some "256 is not in range 0..255"%string.
Proof.
  destruct (proj1 (constructor_range_check u8 256 (mkHeap [] 0)))
    as (message & Hthrow & Hparts & _).
  - right. simpl. lia.
  - exists message. split; [exact Hthrow|].
    rewrite Hparts. reflexivity.
Defined.

(** C5: writing a value and reading it back at the same offset does give
    the value, but the cursor should move by the width of the class both
    times. [u16] stores and fetches two bytes and moves the cursor by
    one. *)
Theorem roundtrip_cursor_of_u16 :
  num_write (mkNum u16 0xbeef) (mkHeap [x00; x00; x00; x00] 1)
  = Ok tt (mkHeap [x00; xef; xbe; x00] 2)
  /\ num_read u16 (mkHeap [x00; xef; xbe; x00] 1)
     = Ok (mkNum u16 0xbeef) (mkHeap [x00; xef; xbe; x00] 2)
  /\ 2 <> 1 + Z.of_nat (accessor_width u16).
Proof.
  repeat split; try reflexivity. simpl. lia.
Qed.

(** C6: the buffer [serializeInstruction] returns should hold the
    discriminant's encoding followed by the body's, and be exactly that
    long. With a [u16] discriminant 0x0102 and a [u8] body 0xAA the two
    encodings are [02 01] and [AA]; the result is the two bytes [02 AA].
    With a [u64] discriminant the buffer is too small for the
    discriminant itself and the call throws. *)
Theorem serializeInstruction_unsigned_tag :
  serializeInstruction
    (ID := instruction_tagged (Num u16) (Num u8) (mkNum u16 0x0102))
    (mkNum u8 0xaa)
  = inr [x02; xaa]
  /\ le_encode (accessor_width u16) 0x0102 ++ le_encode (accessor_width u8) 0xaa
     = [x02; x01; xaa]
  /\ serializeInstruction
       (ID := instruction_tagged (Num u64) (Num u8) (mkNum u64 1))
       (mkNum u8 0)
     = inl ERR_BUFFER_OUT_OF_BOUNDS.
Proof.
  repeat split; reflexivity.
Qed.

(** C7: on a discriminant that differs, [readAccount] returns [null] and
    should leave the cursor just past the discriminant. With a [u32]
    discriminant read at offset 2 the four bytes [08 00 00 00] decode to
    8, which is not the expected 7; [null] is returned, with the cursor at
    3 and not at 6. *)
Theorem readAccount_mismatch_u32_cursor :
  let bytes := [xaa; xbb; x08; x00; x00; x00; x2a; x00; x00; x00] in
  readAccount (Num u32) (Num i32)
    (AD := account_tagged (Num u32) (Num i32) (mkNum u32 7))
    bytes (Some 2)
  = Ok None (mkHeap bytes 3)
  /\ 3 <> 2 + Z.of_nat (accessor_width u32).
Proof.
  split; [reflexivity | simpl; lia].
Qed.

(** C8: on the expected discriminant followed by a body, [readAccount]
    should return the body that was encoded. With a [u16] discriminant
    0x0102 and an [i8] body 5 the buffer is [02 01 05]; the discriminant
    agrees, the body is then read at offset 1, inside the discriminant,
    and the record returned holds 1. *)
Theorem readAccount_match_u16_body :
  le_encode (accessor_width u16) 0x0102 ++ le_encode (accessor_width i8) 5
  = [x02; x01; x05]
  /\ readAccount (Num u16) (Num i8)
       (AD := account_tagged (Num u16) (Num i8) (mkNum u16 0x0102))
       [x02; x01; x05] None
     = Ok (Some (mkNum i8 1)) (mkHeap [x02; x01; x05] 2)
  /\ mkNum i8 1 <> mkNum i8 5.
Proof.
  repeat split; try reflexivity. discriminate.
Qed.

(** C9: with the 32 bytes of the key fitting in the buffer at the cursor,
    [write] stores exactly those bytes there and moves the cursor by 32,
    every byte outside the span keeps its value and the buffer its
    length; [read] takes the 32 bytes at the cursor, leaves the buffer
    alone and moves the cursor by 32; both sizes are 32; and reading what
    was written gives a key with the same bytes. *)
Theorem key_codec (k : PublicKey) (b : Buffer) (off : Z) :
  length (toBuffer k) = 32%nat -> 0 <= off -> off + 32 <= len b ->
  let this := mkSerializablePublicKey k in
  let b' := splice b (Z.to_nat off) (toBuffer k) in
  write this (mkHeap b off) = Ok tt (mkHeap b' (off + 32))
  /\ firstn 32 (skipn (Z.to_nat off) b') = toBuffer k
  /\ length b' = length b
  /\ (forall i : nat, (i < Z.to_nat off \/ Z.to_nat off + 32 <= i)%nat ->
        nth_error b' i = nth_error b i)
  /\ read SerializablePublicKey (mkHeap b off)
     = Ok (mkSerializablePublicKey
             (mkPublicKey (firstn 32 (skipn (Z.to_nat off) b))))
          (mkHeap b (off + 32))
  /\ staticSize SerializablePublicKey = 32
  /\ serializedSize this = 32
  /\ read SerializablePublicKey (mkHeap b' off) = Ok this (mkHeap b' (off + 32))
  /\ equals this this = true.
Proof.
  intros Hk H0 H1 this b'.
  assert (Hfit : (Z.to_nat off + length (toBuffer k) <= length b)%nat)
    by (unfold len in H1; lia).
  assert (Hspan : firstn 32 (skipn (Z.to_nat off) b') = toBuffer k).
  { unfold b'. rewrite <- Hk at 1. apply splice_span. lia. }
  assert (Hlen : length b' = length b) by (apply length_splice; exact Hfit).
  assert (Hread : forall c : Buffer, off + 32 <= len c ->
            read SerializablePublicKey (mkHeap c off)
            = Ok (mkSerializablePublicKey
                    (mkPublicKey (firstn 32 (skipn (Z.to_nat off) c))))
                 (mkHeap c (off + 32))).
  { intros c Hc. unfold read, Key_Deserialize, key_read. run.
    pose proof (Buffer_slice_inside c off 32 H0 Hc) as Hs.
    change (Z.of_nat 32) with 32 in Hs. rewrite Hs.
    unfold PublicKey_new.
    assert (E : length (firstn 32 (skipn (Z.to_nat off) c)) = 32%nat).
    { rewrite length_firstn, length_skipn. unfold len in Hc. lia. }
    rewrite E. reflexivity. }
  split; [|split; [|split; [|split; [|split; [|split; [|split; [|split]]]]]]].
  - unfold this. cbn [write Key_Serialize]. unfold key_write. run.
    cbn [key]. rewrite Buffer_copy_fits by (unfold len; rewrite ?Hk; lia).
    reflexivity.
  - exact Hspan.
  - exact Hlen.
  - intros i Hi. apply splice_outside; rewrite Hk; [lia | exact Hi].
  - apply Hread. exact H1.
  - reflexivity.
  - reflexivity.
  - rewrite Hread by (unfold len; rewrite Hlen; exact H1).
    rewrite Hspan. unfold this. destruct k. reflexivity.
  - unfold equals, Key_Equals, key_equals, PublicKey_equals.
    apply bytes_eqb_refl.
Qed.

Lemma key_codec_witness :
  write (mkSerializablePublicKey sample_key) (mkHeap sample_buffer 3)
  = Ok tt (mkHeap (splice sample_buffer 3 (toBuffer sample_key)) 35).
Proof.
  apply (key_codec sample_key sample_buffer 3).
  - reflexivity.
  - lia.
  - unfold len. simpl. lia.
Defined.

(** C9 without the condition on the buffer: on a three-byte buffer with the
    cursor at 1, [write] of a 32-byte key returns normally with the cursor
    at 33, having stored two bytes of the key and dropped the other
    thirty; the 32 bytes of the key are not in the buffer, and [read] at
    the same offset returns another key, thirty zero bytes followed by the
    two stored ones, which [equals] tells apart from the one written. *)
Lemma key_codec_short_buffer :
  length (toBuffer sample_key) = 32%nat
  /\ write (mkSerializablePublicKey sample_key) (mkHeap [x00; x00; x00] 1)
     = Ok tt (mkHeap [x00; xa5; xa5] (1 + 32))
  /\ firstn 32 (skipn (Z.to_nat 1) [x00; xa5; xa5]) <> toBuffer sample_key
  /\ read SerializablePublicKey (mkHeap [x00; xa5; xa5] 1)
     = Ok (mkSerializablePublicKey
             (mkPublicKey (repeat x00 30 ++ [xa5; xa5])))
          (mkHeap [x00; xa5; xa5] (1 + 32))
  /\ mkSerializablePublicKey (mkPublicKey (repeat x00 30 ++ [xa5; xa5]))
     <> mkSerializablePublicKey sample_key
  /\ equals (mkSerializablePublicKey
               (mkPublicKey (repeat x00 30 ++ [xa5; xa5])))
            (mkSerializablePublicKey sample_key) = false.
Proof.
  repeat split; try reflexivity; discriminate.
Qed.

(** C10: left without a cursor argument, [readAccount] runs as it does
    with a cursor at offset 0: decoding starts at the first byte of the
    buffer. *)
Theorem readAccount_default_cursor (D T : Type) (ED : Equals D D)
    (DD : Deserialize D) (DT : Deserialize T) (AD : Account D T)
    (buffer : Buffer) :
  readAccount D T buffer None = readAccount D T buffer (Some 0)
  /\ readAccount D T buffer None = readAccount_body D T (mkHeap buffer 0).
Proof.
  split; reflexivity.
Qed.

(** * Further properties of the code *)

(** ** Helper facts *)

Lemma in_bounds_false (b : Buffer) (off : Z) (w : nat) :
  off < 0 \/ len b < off + Z.of_nat w -> in_bounds b off w = false.
Proof.
  intros H. unfold in_bounds. apply andb_false_iff.
  destruct H; [left; apply Z.leb_gt | right; apply Z.leb_gt]; assumption.
Qed.

Lemma in_bounds_inv (b : Buffer) (off : Z) (w : nat) :
  in_bounds b off w = true -> 0 <= off /\ off + Z.of_nat w <= len b.
Proof.
  unfold in_bounds. intros H. apply andb_prop in H as [H0 H1].
  split; apply Z.leb_le; assumption.
Qed.

Lemma boundsError_is_bounds_error (b : Buffer) (w : nat) :
  is_bounds_error (boundsError b w).
Proof.
  unfold is_bounds_error, boundsError.
  destruct (len b <? Z.of_nat w); [right | left]; reflexivity.
Qed.

Lemma splice_inside (b : Buffer) (off : nat) (bs : list byte) (i : nat) :
  (off <= length b)%nat -> (off <= i < off + length bs)%nat ->
  nth_error (splice b off bs) i = nth_error bs (i - off).
Proof.
  intros Hoff Hi. unfold splice.
  rewrite nth_error_app2 by (rewrite length_firstn; lia).
  rewrite length_firstn, Nat.min_l by lia.
  apply nth_error_app1. lia.
Qed.

Lemma firstn_skipn_app_left (a c : list byte) :
  firstn (length a) (skipn 0 (a ++ c)) = a.
Proof.
  simpl. rewrite firstn_app, Nat.sub_diag, firstn_all. simpl.
  apply app_nil_r.
Qed.

(** ** The integer classes: round trip, frame and failures *)

(** X1: for each of the eight classes, with a value within bounds and the
    accessor's bytes fitting at the cursor, [write] succeeds and a [read]
    at the offset written to returns an instance with the same value,
    equal to the one written according to [equals]. *)
Theorem num_roundtrip (T : NumTy) (v : Z) (b : Buffer) (off : Z) :
  min (bounds T) <= v <= max (bounds T) ->
  0 <= off -> off + Z.of_nat (accessor_width T) <= len b ->
  exists b',
    write (mkNum T v) (mkHeap b off) = Ok tt (mkHeap b' (off + write_step T))
    /\ read (Num T) (mkHeap b' off)
       = Ok (mkNum T v) (mkHeap b' (off + read_step T))
    /\ equals (mkNum T v) (mkNum T v) = true.
Proof.
  intros Hv H0 H1.
  exists (splice b (Z.to_nat off) (le_encode (accessor_width T) v)).
  split; [|split].
  - cbn [write Num_Serialize]. now apply num_write_ok.
  - unfold read, Num_Deserialize. now apply num_read_after_write.
  - unfold equals, Num_Equals, num_equals. apply Z.eqb_refl.
Qed.

Lemma num_roundtrip_witness :
  exists b',
    write (mkNum i16 (-2)) (mkHeap [x00; x00; x00] 1)
    = Ok tt (mkHeap b' (1 + write_step i16))
    /\ read (Num i16) (mkHeap b' 1)
       = Ok (mkNum i16 (-2)) (mkHeap b' (1 + read_step i16))
    /\ equals (mkNum i16 (-2)) (mkNum i16 (-2)) = true.
Proof.
  apply (num_roundtrip i16 (-2) [x00; x00; x00] 1).
  - simpl. lia.
  - lia.
  - unfold len. simpl. lia.
Defined.

(** X2: whatever the instance, the buffer and the cursor, and whether it
    returns or throws, [write] of a numeric class keeps the length of the
    buffer and changes no byte outside the accessor's span at the
    cursor. *)
Theorem num_write_frame (T : NumTy) (n : Num T) (h : Heap) :
  let h' := heap_of (write n h) in
  length (buffer h') = length (buffer h)
  /\ forall i : nat,
       (i < Z.to_nat (offset h)
        \/ Z.to_nat (offset h) + accessor_width T <= i)%nat ->
       nth_error (buffer h') i = nth_error (buffer h) i.
Proof.
  destruct h as [b off]. cbn [write Num_Serialize].
  unfold num_write, Buffer_write. run.
  destruct ((value n <? int_min (signed T) (accessor_width T))
            || (value n >? int_max (signed T) (accessor_width T)));
    [cbn; split; [reflexivity | intros; reflexivity]|].
  destruct (in_bounds b off (accessor_width T)) eqn:Hin;
    [| cbn; split; [reflexivity | intros; reflexivity]].
  apply in_bounds_inv in Hin as [H0 H1]. unfold len in H1.
  cbn [heap_of buffer offset]. split.
  - apply length_splice. rewrite length_le_encode. lia.
  - intros i Hi. apply splice_outside; rewrite length_le_encode; [lia | exact Hi].
Qed.

(** X3: when the accessor's span does not lie inside the buffer, [write]
    of an in-range instance throws one of the accessors' bounds errors; the
    buffer is as it was and the cursor has not moved. *)
Theorem num_write_out_of_bounds (T : NumTy) (v : Z) (b : Buffer) (off : Z) :
  min (bounds T) <= v <= max (bounds T) ->
  off < 0 \/ len b < off + Z.of_nat (accessor_width T) ->
  exists e, write (mkNum T v) (mkHeap b off) = Throw e (mkHeap b off)
            /\ is_bounds_error e.
Proof.
  intros Hv Hout. destruct (bounds_full_range T) as [Emin Emax].
  exists (boundsError b (accessor_width T)).
  split; [| apply boundsError_is_bounds_error].
  cbn [write Num_Serialize]. unfold num_write, Buffer_write. run.
  cbn [value]. rewrite <- Emin, <- Emax.
  destruct (Z.ltb_spec v (min (bounds T))); [lia|].
  destruct (Z.gtb_spec v (max (bounds T))); [lia|]. cbn [orb].
  now rewrite in_bounds_false.
Qed.

Lemma num_write_out_of_bounds_witness :
  exists e, write (mkNum u32 7) (mkHeap [x00; x00; x00] 0)
            = Throw e (mkHeap [x00; x00; x00] 0)
            /\ is_bounds_error e.
Proof.
  apply (num_write_out_of_bounds u32 7 [x00; x00; x00] 0).
  - simpl. lia.
  - right. unfold len. simpl. lia.
Defined.

(** X4: an instance whose public [value] lies outside the bounds of its
    class is never written: [write] throws [ERR_OUT_OF_RANGE], whatever the
    buffer, and the buffer and the cursor stay as they were. *)
Theorem num_write_bad_value (T : NumTy) (v : Z) (h : Heap) :
  v < min (bounds T) \/ max (bounds T) < v ->
  write (mkNum T v) h = Throw ERR_OUT_OF_RANGE h.
Proof.
  intros Hout. destruct (bounds_full_range T) as [Emin Emax].
  destruct h as [b off].
  cbn [write Num_Serialize]. unfold num_write, Buffer_write. run.
  cbn [value]. rewrite <- Emin, <- Emax.
  destruct (Z.ltb_spec v (min (bounds T))); [reflexivity|].
  destruct (Z.gtb_spec v (max (bounds T))); [reflexivity|]. lia.
Qed.

Lemma num_write_bad_value_witness :
  write (mkNum u8 256) (mkHeap [x00; x00] 0)
  = Throw ERR_OUT_OF_RANGE (mkHeap [x00; x00] 0).
Proof.
  apply (num_write_bad_value u8 256 (mkHeap [x00; x00] 0)).
  right. simpl. lia.
Defined.

(** X5: static [read] of a numeric class has two outcomes only. With the
    accessor's span inside the buffer it returns an instance within the
    bounds of the class, leaves the buffer alone and moves the cursor by
    the class's constant. Otherwise it throws a bounds error of the
    accessor and the cursor has not moved. The range check of the
    constructor never fails inside [read]. *)
Theorem num_read_outcomes (T : NumTy) (b : Buffer) (off : Z) :
  (0 <= off /\ off + Z.of_nat (accessor_width T) <= len b
   /\ exists n, read (Num T) (mkHeap b off)
                = Ok n (mkHeap b (off + read_step T))
                /\ min (bounds T) <= value n <= max (bounds T))
  \/ ((off < 0 \/ len b < off + Z.of_nat (accessor_width T))
      /\ exists e, read (Num T) (mkHeap b off) = Throw e (mkHeap b off)
                   /\ is_bounds_error e).
Proof.
  destruct (bounds_full_range T) as [Emin Emax].
  destruct (in_bounds b off (accessor_width T)) eqn:Hin.
  - left. apply in_bounds_inv in Hin as [H0 H1]. split; [|split]; try assumption.
    eexists. split.
    + unfold read, Num_Deserialize. now apply num_read_ok.
    + cbn [value]. rewrite Emin, Emax.
      apply Buffer_read_range; [apply accessor_width_pos | assumption..].
  - right.
    assert (Hout : off < 0 \/ len b < off + Z.of_nat (accessor_width T)).
    { unfold in_bounds in Hin. apply andb_false_iff in Hin.
      destruct Hin as [H|H]; apply Z.leb_gt in H; [left | right]; exact H. }
    split; [exact Hout|].
    exists (boundsError b (accessor_width T)).
    split; [| apply boundsError_is_bounds_error].
    unfold read, Num_Deserialize, num_read, Buffer_read. run.
    now rewrite Hin.
Qed.

(** X6: for two in-range values of one class, [equals] holds exactly when
    [write] stores the same bytes for both: comparison of instances and
    comparison of their encodings agree. *)
Theorem num_equals_iff_same_bytes (T : NumTy) (v1 v2 : Z) :
  min (bounds T) <= v1 <= max (bounds T) ->
  min (bounds T) <= v2 <= max (bounds T) ->
  equals (mkNum T v1) (mkNum T v2) = true
  <-> le_encode (accessor_width T) v1 = le_encode (accessor_width T) v2.
Proof.
  intros H1 H2. destruct (bounds_full_range T) as [Emin Emax].
  rewrite Emin, Emax in H1, H2.
  unfold equals, Num_Equals, num_equals. cbn [value]. rewrite Z.eqb_eq.
  split; [intros ->; reflexivity|].
  intros E.
  rewrite <- (decode_encode (signed T) (accessor_width T) v1
                (accessor_width_pos T) H1).
  rewrite <- (decode_encode (signed T) (accessor_width T) v2
                (accessor_width_pos T) H2).
  cbv zeta. now rewrite E.
Qed.

Lemma num_equals_iff_same_bytes_witness :
  equals (mkNum i32 (-5)) (mkNum i32 250) = true
  <-> le_encode (accessor_width i32) (-5) = le_encode (accessor_width i32) 250.
Proof.
  apply (num_equals_iff_same_bytes i32 (-5) 250); simpl; lia.
Defined.

(** X7: for the five classes whose constants agree with their accessor
    ([i8], [i16], [i32], [i64], [u8]), [staticSize()] and
    [serializedSize()] are the number of bytes the accessor touches, and a
    successful [write] or [read] moves the cursor by exactly that
    number. *)
Theorem cursor_protocol_of_five_classes (T : NumTy) (v : Z) (b : Buffer)
    (off : Z) :
  In T [i8; i16; i32; i64; u8] ->
  min (bounds T) <= v <= max (bounds T) ->
  0 <= off -> off + Z.of_nat (accessor_width T) <= len b ->
  staticSize (Num T) = Z.of_nat (accessor_width T)
  /\ serializedSize (mkNum T v) = Z.of_nat (accessor_width T)
  /\ (exists b', write (mkNum T v) (mkHeap b off)
                 = Ok tt (mkHeap b' (off + serializedSize (mkNum T v))))
  /\ (exists n, read (Num T) (mkHeap b off)
                = Ok n (mkHeap b (off + staticSize (Num T)))).
Proof.
  intros HT Hv H0 H1. destruct (step_is_width T HT) as (_ & _ & Es).
  destruct (cursor_moves_by_width T v b off HT Hv H0 H1) as [Hw Hr].
  cbn [serializedSize Num_Serialize]. unfold staticSize, Num_StaticSize,
    num_serializedSize. rewrite Es.
  split; [reflexivity | split; [reflexivity | split; assumption]].
Qed.

Lemma cursor_protocol_of_five_classes_witness :
  staticSize (Num i64) = Z.of_nat (accessor_width i64)
  /\ serializedSize (mkNum i64 (-1)) = Z.of_nat (accessor_width i64)
  /\ (exists b', write (mkNum i64 (-1)) (mkHeap (repeat x00 10) 2)
                 = Ok tt (mkHeap b' (2 + serializedSize (mkNum i64 (-1)))))
  /\ (exists n, read (Num i64) (mkHeap (repeat x00 10) 2)
                = Ok n (mkHeap (repeat x00 10) (2 + staticSize (Num i64)))).
Proof.
  apply (cursor_protocol_of_five_classes i64 (-1) (repeat x00 10) 2).
  - simpl. tauto.
  - simpl. lia.
  - lia.
  - unfold len. simpl. lia.
Defined.

(** ** The identifier codec on short buffers *)

Lemma firstn_min_length (n : nat) (l : list byte) :
  firstn (Nat.min n (length l)) l = firstn n l.
Proof.
  destruct (Nat.le_ge_cases n (length l)) as [H|H].
  - now rewrite Nat.min_l.
  - rewrite Nat.min_r by assumption. now rewrite firstn_all, firstn_all2.
Qed.

Lemma Buffer_slice_from (b : Buffer) (off : Z) :
  0 <= off ->
  Buffer_slice b off (off + 32) = firstn 32 (skipn (Z.to_nat off) b).
Proof.
  intros H0. unfold Buffer_slice, clamp_index, len.
  destruct (Z.ltb_spec off 0); [lia|].
  destruct (Z.ltb_spec (off + 32) 0); [lia|].
  destruct (Z_le_gt_dec (Z.of_nat (length b)) off) as [Hge|Hlt].
  - rewrite (Z.min_r off) by lia. rewrite Nat2Z.id.
    rewrite skipn_all, (skipn_all2 b) by lia. now rewrite !firstn_nil.
  - rewrite (Z.min_l off) by lia.
    rewrite <- (firstn_min_length 32 (skipn (Z.to_nat off) b)).
    f_equal. rewrite length_skipn. lia.
Qed.

(** X8: [write] of a 32-byte key never reports a buffer that is too
    small. For any cursor at or after 0 it returns normally and moves the
    cursor by 32; the bytes of the key that fit before the end of the
    buffer are stored, the others are dropped, and the buffer keeps its
    length and every byte outside the span. *)
Theorem key_write_any_buffer (k : PublicKey) (b : Buffer) (off : Z) :
  length (toBuffer k) = 32%nat -> 0 <= off ->
  exists b',
    write (mkSerializablePublicKey k) (mkHeap b off)
    = Ok tt (mkHeap b' (off + 32))
    /\ length b' = length b
    /\ (forall i : nat,
          (Z.to_nat off <= i < length b)%nat -> (i < Z.to_nat off + 32)%nat ->
          nth_error b' i = nth_error (toBuffer k) (i - Z.to_nat off))
    /\ (forall i : nat,
          (i < Z.to_nat off \/ Z.to_nat off + 32 <= i)%nat ->
          nth_error b' i = nth_error b i).
Proof.
  intros Hk H0. cbn [write Key_Serialize]. unfold key_write, Buffer_copy. run.
  cbn [key]. destruct (Z.ltb_spec off 0); [lia|].
  destruct (Z.leb_spec (len b) off) as [Hge|Hlt]; run.
  - exists b. unfold len in Hge.
    split; [reflexivity | split; [reflexivity | split]].
    + intros i Hi. lia.
    + intros i _. reflexivity.
  - unfold len in *. rewrite Hk.
    set (nb := Z.to_nat (Z.min (Z.of_nat 32) (Z.of_nat (length b) - off))).
    assert (Hnb : length (firstn nb (toBuffer k)) = nb).
    { rewrite length_firstn, Hk. unfold nb. lia. }
    assert (Hnb' : nb = Nat.min 32 (length b - Z.to_nat off)) by (unfold nb; lia).
    eexists. split; [reflexivity | split; [|split]].
    + apply length_splice. rewrite Hnb. lia.
    + intros i Hi Hi'. rewrite splice_inside by (rewrite ?Hnb; lia).
      rewrite nth_error_firstn.
      destruct (Nat.ltb_spec (i - Z.to_nat off) nb); [reflexivity | lia].
    + intros i Hi. apply splice_outside; rewrite Hnb; lia.
Qed.

Lemma key_write_any_buffer_witness :
  exists b',
    write (mkSerializablePublicKey sample_key) (mkHeap [x00; x00; x00] 1)
    = Ok tt (mkHeap b' (1 + 32))
    /\ length b' = length [x00; x00; x00]
    /\ (forall i : nat,
          (Z.to_nat 1 <= i < length [x00; x00; x00])%nat ->
          (i < Z.to_nat 1 + 32)%nat ->
          nth_error b' i = nth_error (toBuffer sample_key) (i - Z.to_nat 1))
    /\ (forall i : nat,
          (i < Z.to_nat 1 \/ Z.to_nat 1 + 32 <= i)%nat ->
          nth_error b' i = nth_error [x00; x00; x00] i).
Proof.
  apply (key_write_any_buffer sample_key [x00; x00; x00] 1).
  - reflexivity.
  - lia.
Defined.

(** X9: static [read] of a key never reports a buffer that is too small
    either. For any cursor at or after 0 it returns a key of 32 bytes,
    leaves the buffer alone and moves the cursor by 32; when fewer than 32
    bytes are left at the cursor the key is those bytes preceded by
    zeros. *)
Theorem key_read_any_buffer (b : Buffer) (off : Z) :
  0 <= off ->
  let avail := firstn 32 (skipn (Z.to_nat off) b) in
  read SerializablePublicKey (mkHeap b off)
  = Ok (mkSerializablePublicKey
          (mkPublicKey (repeat x00 (32 - length avail) ++ avail)))
       (mkHeap b (off + 32))
  /\ length (repeat x00 (32 - length avail) ++ avail) = 32%nat.
Proof.
  intros H0 avail.
  assert (Hle : (length avail <= 32)%nat).
  { unfold avail. rewrite length_firstn. lia. }
  split.
  - unfold read, Key_Deserialize, key_read. run.
    rewrite Buffer_slice_from by assumption. fold avail.
    unfold PublicKey_new.
    destruct (Nat.leb_spec (length avail) 32); [reflexivity | lia].
  - rewrite length_app, repeat_length. lia.
Qed.

Lemma key_read_any_buffer_witness :
  let avail := firstn 32 (skipn (Z.to_nat 1) [x01; x02; x03]) in
  read SerializablePublicKey (mkHeap [x01; x02; x03] 1)
  = Ok (mkSerializablePublicKey
          (mkPublicKey (repeat x00 (32 - length avail) ++ avail)))
       (mkHeap [x01; x02; x03] (1 + 32))
  /\ length (repeat x00 (32 - length avail) ++ avail) = 32%nat.
Proof.
  apply (key_read_any_buffer [x01; x02; x03] 1). lia.
Defined.

(** ** Tagged records over the integer classes *)

Lemma serialize_numeric_bytes (D T : NumTy) (d t : Z) :
  In D [i8; i16; i32; i64; u8] -> In T [i8; i16; i32; i64; u8] ->
  min (bounds D) <= d <= max (bounds D) ->
  min (bounds T) <= t <= max (bounds T) ->
  serializeInstruction
    (ID := instruction_tagged (Num D) (Num T) (mkNum D d)) (mkNum T t)
  = inr (le_encode (accessor_width D) d ++ le_encode (accessor_width T) t).
Proof.
  intros HD HT Hd Ht.
  destruct (num_writes_at_cursor D d HD Hd) as [Wd Sd].
  destruct (num_writes_at_cursor T t HT Ht) as [Wt St].
  exact (serializeInstruction_layout
           (ID := instruction_tagged (Num D) (Num T) (mkNum D d))
           (mkNum T t) _ _ Wd Sd Wt St).
Qed.

(** Reading where an encoding sits in a buffer gives the value encoded. *)
Lemma num_read_encoded (T : NumTy) (v : Z) (pre post : list byte) :
  min (bounds T) <= v <= max (bounds T) ->
  let b := pre ++ le_encode (accessor_width T) v ++ post in
  num_read T (mkHeap b (len pre))
  = Ok (mkNum T v) (mkHeap b (len pre + read_step T)).
Proof.
  intros Hv b. destruct (bounds_full_range T) as [Emin Emax].
  rewrite num_read_ok.
  - do 2 f_equal. cbv zeta. unfold len, b. rewrite Nat2Z.id.
    assert (E : firstn (accessor_width T)
                  (skipn (length pre)
                     (pre ++ le_encode (accessor_width T) v ++ post))
                = le_encode (accessor_width T) v).
    { rewrite skipn_app, Nat.sub_diag, skipn_all. cbn [skipn app].
      pose proof (firstn_skipn_app_left (le_encode (accessor_width T) v) post)
        as F.
      rewrite length_le_encode in F. exact F. }
    rewrite E.
    apply decode_encode; [apply accessor_width_pos|].
    rewrite <- Emin, <- Emax. assumption.
  - unfold len. lia.
  - unfold len, b. rewrite !length_app, length_le_encode. lia.
Qed.

Lemma num_read_out_of_bounds (T : NumTy) (b : Buffer) (off : Z) :
  off < 0 \/ len b < off + Z.of_nat (accessor_width T) ->
  num_read T (mkHeap b off)
  = Throw (boundsError b (accessor_width T)) (mkHeap b off).
Proof.
  intros Hout. unfold num_read, Buffer_read. run.
  now rewrite in_bounds_false.
Qed.

(** X10: with a discriminant and a body taken from [i8], [i16], [i32],
    [i64], [u8] and holding in-range values, [serializeInstruction] returns
    the little-endian bytes of the discriminant followed by those of the
    body, and the length of the result is the sum of the two static
    sizes. *)
Theorem serializeInstruction_numeric (D T : NumTy) (d t : Z) :
  In D [i8; i16; i32; i64; u8] -> In T [i8; i16; i32; i64; u8] ->
  min (bounds D) <= d <= max (bounds D) ->
  min (bounds T) <= t <= max (bounds T) ->
  exists buf,
    serializeInstruction
      (ID := instruction_tagged (Num D) (Num T) (mkNum D d)) (mkNum T t)
    = inr buf
    /\ buf = le_encode (accessor_width D) d ++ le_encode (accessor_width T) t
    /\ len buf = staticSize (Num D) + staticSize (Num T).
Proof.
  intros HD HT Hd Ht. eexists. split; [|split].
  - now apply serialize_numeric_bytes.
  - reflexivity.
  - destruct (step_is_width D HD) as (_ & _ & ED).
    destruct (step_is_width T HT) as (_ & _ & ET).
    unfold staticSize, Num_StaticSize, len.
    rewrite ED, ET, length_app, !length_le_encode. lia.
Qed.

Lemma serializeInstruction_numeric_witness :
  exists buf,
    serializeInstruction
      (ID := instruction_tagged (Num i32) (Num i64) (mkNum i32 7))
      (mkNum i64 (-1))
    = inr buf
    /\ buf = le_encode (accessor_width i32) 7 ++ le_encode (accessor_width i64) (-1)
    /\ len buf = staticSize (Num i32) + staticSize (Num i64).
Proof.
  apply (serializeInstruction_numeric i32 i64 7 (-1)).
  - simpl. tauto.
  - simpl. tauto.
  - simpl. lia.
  - simpl. lia.
Defined.

(** X11: with discriminant and body classes among [i8], [i16], [i32],
    [i64], [u8], what [serializeInstruction] returns is read back by
    [readAccount]: a candidate with the same discriminant gets the body
    that was serialized, with the cursor at the end of the buffer; a
    candidate with another discriminant gets [null], with the cursor just
    past the discriminant. *)
Theorem readAccount_after_serializeInstruction (D T : NumTy) (d t e : Z) :
  In D [i8; i16; i32; i64; u8] -> In T [i8; i16; i32; i64; u8] ->
  min (bounds D) <= d <= max (bounds D) ->
  min (bounds T) <= t <= max (bounds T) ->
  exists buf,
    serializeInstruction
      (ID := instruction_tagged (Num D) (Num T) (mkNum D d)) (mkNum T t)
    = inr buf
    /\ readAccount (Num D) (Num T)
         (AD := account_tagged (Num D) (Num T) (mkNum D d)) buf None
       = Ok (Some (mkNum T t)) (mkHeap buf (len buf))
    /\ (e <> d ->
        readAccount (Num D) (Num T)
          (AD := account_tagged (Num D) (Num T) (mkNum D e)) buf None
        = Ok None (mkHeap buf (Z.of_nat (accessor_width D)))).
Proof.
  intros HD HT Hd Ht.
  destruct (step_is_width D HD) as (_ & ErD & _).
  destruct (step_is_width T HT) as (_ & ErT & _).
  set (encd := le_encode (accessor_width D) d).
  set (enci := le_encode (accessor_width T) t).
  assert (Rd : num_read D (mkHeap (encd ++ enci) 0)
               = Ok (mkNum D d)
                    (mkHeap (encd ++ enci) (Z.of_nat (accessor_width D)))).
  { pose proof (num_read_encoded D d [] enci Hd) as R.
    cbv zeta in R. cbn [app len length Z.of_nat] in R.
    rewrite ErD in R. exact R. }
  assert (Ri : num_read T (mkHeap (encd ++ enci) (Z.of_nat (accessor_width D)))
               = Ok (mkNum T t) (mkHeap (encd ++ enci) (len (encd ++ enci)))).
  { pose proof (num_read_encoded T t encd [] Ht) as R.
    cbv zeta in R. fold enci in R. rewrite app_nil_r in R.
    unfold len in *. unfold encd in R at 2. rewrite length_le_encode in R.
    rewrite R. do 2 f_equal.
    rewrite ErT, length_app. unfold encd, enci.
    rewrite !length_le_encode. lia. }
  exists (encd ++ enci). split; [|split].
  - now apply serialize_numeric_bytes.
  - unfold readAccount.
    apply (readAccount_body_match
             (AD := account_tagged (Num D) (Num T) (mkNum D d)) _ _ _ _ _ Rd).
    + unfold equals, Num_Equals, num_equals. apply Z.eqb_refl.
    + exact Ri.
  - intros Hne. unfold readAccount.
    apply (readAccount_body_mismatch
             (AD := account_tagged (Num D) (Num T) (mkNum D e)) _ _ _ Rd).
    unfold equals, Num_Equals, num_equals. cbn. apply Z.eqb_neq. congruence.
Qed.

Lemma readAccount_after_serializeInstruction_witness :
  exists buf,
    serializeInstruction
      (ID := instruction_tagged (Num i32) (Num i64) (mkNum i32 7))
      (mkNum i64 (-1))
    = inr buf
    /\ readAccount (Num i32) (Num i64)
         (AD := account_tagged (Num i32) (Num i64) (mkNum i32 7)) buf None
       = Ok (Some (mkNum i64 (-1))) (mkHeap buf (len buf))
    /\ (8 <> 7 ->
        readAccount (Num i32) (Num i64)
          (AD := account_tagged (Num i32) (Num i64) (mkNum i32 8)) buf None
        = Ok None (mkHeap buf (Z.of_nat (accessor_width i32)))).
Proof.
  apply (readAccount_after_serializeInstruction i32 i64 7 (-1) 8).
  - simpl. tauto.
  - simpl. tauto.
  - simpl. lia.
  - simpl. lia.
Defined.

(** X12: with a numeric discriminant class, a buffer that does not hold
    the discriminant's bytes at the cursor makes [readAccount] throw the
    accessor's bounds error, whatever the record class; it does not return
    [null], and the cursor has not moved. *)
Theorem readAccount_short_buffer (D : NumTy) (T : Type) (DT : Deserialize T)
    (AD : Account (Num D) T) (buf : Buffer) (off : Z) :
  off < 0 \/ len buf < off + Z.of_nat (accessor_width D) ->
  exists e,
    readAccount (Num D) T buf (Some off) = Throw e (mkHeap buf off)
    /\ is_bounds_error e.
Proof.
  intros Hout. exists (boundsError buf (accessor_width D)).
  split; [| apply boundsError_is_bounds_error].
  unfold readAccount, readAccount_body, bind, read at 1, Num_Deserialize.
  now rewrite num_read_out_of_bounds.
Qed.

Lemma readAccount_short_buffer_witness :
  exists e,
    readAccount (Num i32) (Num i64)
      (AD := account_tagged (Num i32) (Num i64) (mkNum i32 7))
      [x07; x00; x00] (Some 0)
    = Throw e (mkHeap [x07; x00; x00] 0)
    /\ is_bounds_error e.
Proof.
  apply (readAccount_short_buffer i32 (Num i64) _ _ [x07; x00; x00] 0).
  right. unfold len. simpl. lia.
Defined.
